(** * Schema.org key validation (lighthouse-core/lib/sd-validation/schema-validator.js)

    A shallow embedding of the structured-data validator: [cleanName],
    [findType], [getPropsForType], [validateObjectKeys] and the exported
    [validateSchemaOrg], followed by the properties of the specification
    that concern them. *)

From Stdlib Require Import List String Ascii Bool Arith Lia DecimalString.
Import ListNotations.
Open Scope string_scope.
Set Warnings "-register-all".

(** ** Strings and the two regular expressions of the module *)

Module Str.

(** [dropLiteral lit s]: consume the literal [lit] at the head of [s] and
    return what follows, as a regex engine does for a run of literal
    characters. *)
Fixpoint dropLiteral (lit s : string) : option string :=
  match lit with
  | EmptyString => Some s
  | String c lit' =>
      match s with
      | EmptyString => None
      | String d s' => if Ascii.eqb c d then dropLiteral lit' s' else None
      end
  end.

(** [SCHEMA_ORG_URL_REGEX = /https?:\/\/schema\.org\//] tried at the head of
    [s]: "http", then the greedy optional "s" (with backtracking to the empty
    alternative), then "://schema.org/".  The result is the text after the
    match. *)
Definition matchSchemaOrgUrl (s : string) : option string :=
  match dropLiteral "http" s with
  | None => None
  | Some r =>
      match match dropLiteral "s" r with
            | Some r' => dropLiteral "://schema.org/" r'
            | None => None
            end with
      | Some rest => Some rest
      | None => dropLiteral "://schema.org/" r
      end
  end.

(** [s.replace(SCHEMA_ORG_URL_REGEX, '')]: the regex has no [g] flag and no
    anchor, so the leftmost match, wherever it starts, is removed once. *)
Fixpoint replaceSchemaOrgUrl (s : string) : string :=
  match matchSchemaOrgUrl s with
  | Some rest => rest
  | None =>
      match s with
      | EmptyString => EmptyString
      | String c s' => String c (replaceSchemaOrgUrl s')
      end
  end.

(** [SCHEMA_ORG_URL_REGEX.test(s)]: is there a match starting anywhere. *)
Fixpoint testSchemaOrgUrl (s : string) : bool :=
  match matchSchemaOrgUrl s with
  | Some _ => true
  | None =>
      match s with
      | EmptyString => false
      | String _ s' => testSchemaOrgUrl s'
      end
  end.

(** [key.replace(/-(input|output)$/, '')]: the leftmost position from which
    the rest of the string is exactly "-input" or "-output". *)
Fixpoint replaceInputOutput (s : string) : string :=
  if (s =? "-input") || (s =? "-output") then EmptyString
  else
    match s with
    | EmptyString => EmptyString
    | String c s' => String c (replaceInputOutput s')
    end.

(** [key.indexOf('@') !== 0] *)
Definition indexOfAtIsNot0 (key : string) : bool :=
  match key with
  | String c _ => negb (Ascii.eqb c "@"%char)
  | EmptyString => true
  end.

(** [segments.join(sep)] on an array of strings. *)
Fixpoint join (sep : string) (segments : list string) : string :=
  match segments with
  | [] => EmptyString
  | [x] => x
  | x :: rest => x ++ sep ++ join sep rest
  end.

(** The double-quote character (code 34) used inside one of the messages. *)
Definition dquote : string := String (ascii_of_nat 34) EmptyString.

End Str.

(** [function cleanName(uri)] *)
Definition cleanName (uri : string) : string := Str.replaceSchemaOrgUrl uri.

(** The two texts [SCHEMA_ORG_URL_REGEX] matches. *)
Definition isSchemaOrgUrl (u : string) : Prop :=
  u = "http://schema.org/" \/ u = "https://schema.org/".

(** [s] contains an occurrence of the schema.org URL. *)
Definition containsSchemaOrgUrl (s : string) : Prop :=
  exists pre u rest, isSchemaOrgUrl u /\ s = pre ++ u ++ rest.

(** [uri] is [pre ++ u ++ rest] where [u] is the leftmost occurrence of the
    schema.org URL in [uri]. *)
Definition leftmostUrlAt (uri pre u rest : string) : Prop :=
  isSchemaOrgUrl u /\ uri = pre ++ u ++ rest /\
  forall pre' u' rest',
    isSchemaOrgUrl u' -> uri = pre' ++ u' ++ rest' -> length pre <= length pre'.

(** ** Outcomes of a call

    A JavaScript call returns, throws, or recurses without end.  The
    recursion of [getPropsForType] is given a budget [fuel] of nested calls;
    [Timeout] says that the budget did not suffice. *)

(** What the module can throw: the [Error] of [getPropsForType], and the
    [TypeError] of a call of [.replace] on a value that has no such method. *)
Inductive exn : Type :=
| UnableToGetProps (type : string)
| TypeError.

(** [`Unable to get props for missing type "${type}"`] *)
Definition unableToGetPropsMessage (type : string) : string :=
  "Unable to get props for missing type " ++ Str.dquote ++ type ++ Str.dquote.

Inductive outcome (A : Type) : Type :=
| Done (a : A)
| Raise (e : exn)
| Timeout.

Arguments Done {A} a.
Arguments Raise {A} e.
Arguments Timeout {A}.

Definition bind {A B : Type} (m : outcome A) (k : A -> outcome B) : outcome B :=
  match m with
  | Done a => k a
  | Raise e => Raise e
  | Timeout => Timeout
  end.

Notation "x <- m ;; k" := (bind m (fun x => k))
  (at level 61, m at next level, right associativity).

(** [l.reduce((acc, x) => f(acc, x), init)] with a callback that may throw. *)
Fixpoint reduceM {A B : Type} (f : A -> B -> outcome A) (l : list B) (acc : A)
  : outcome A :=
  match l with
  | [] => Done acc
  | x :: l' => a <- f acc x ;; reduceM f l' a
  end.

(** [l.filter(x => p(x))] with a predicate that may throw. *)
Fixpoint filterM {A : Type} (p : A -> outcome bool) (l : list A)
  : outcome (list A) :=
  match l with
  | [] => Done []
  | x :: l' =>
      b <- p x ;;
      rest <- filterM p l' ;;
      Done (if b then x :: rest else rest)
  end.

(** ** Data *)

(** JSON values, as an expanded JSON-LD document holds them.  The fields of
    an object are listed in the order in which [Object.keys] and
    [Object.entries] enumerate them.  Numbers are never inspected; they are
    kept as their literal. *)
Inductive value : Type :=
| VNull
| VBool (b : bool)
| VNum (literal : string)
| VStr (s : string)
| VArr (items : list value)
| VObj (fields : list (string * value)).

(** One entry of [schema-tree.json]: [{name, parent}]. *)
Record TypeNode : Type := { type_name : string; type_parent : list string }.
Record PropertyNode : Type := { prop_name : string; prop_parent : list string }.

(** [schemaStructure], the content of [assets/schema-tree.json]. *)
Record SchemaStructure : Type :=
  { types : list TypeNode; properties : list PropertyNode }.

(** [{path, message}] *)
Record ValidationError : Type := { path : string; message : string }.

Definition TYPE_KEYWORD : string := "@type".

(** [parent.includes(x)] *)
Definition includes (l : list string) (x : string) : bool :=
  existsb (fun y => y =? x) l.

(** The decimal text of an array index, the key under which JavaScript
    lists an array element. *)
Definition indexKey (i : nat) : string := NilEmpty.string_of_uint (Nat.to_uint i).

(** [Object.keys(obj)] *)
Definition objectKeys (obj : value) : list string :=
  match obj with
  | VObj fields => map fst fields
  | VArr items => map indexKey (seq 0 (List.length items))
  | _ => []
  end.

(** ** The walker *)

Section Walker.
Context {S : Type}.
Variable callback : string -> value -> list string -> value -> S -> outcome S.

Section Entries.
Variable walk : value -> list string -> S -> outcome S.
Variable obj : value.
Variable path : list string.

(** The entries of an object, in turn: the visitor on the entry, then the
    walk of its value. *)
Fixpoint walkFields (l : list (string * value)) (st : S) : outcome S :=
  match l with
  | [] => Done st
  | (fieldName, fieldValue) :: l' =>
      let newPath := (path ++ [fieldName])%list in
      st1 <- callback fieldName fieldValue newPath obj st ;;
      st2 <- walk fieldValue newPath st1 ;;
      walkFields l' st2
  end.

(** The entries of an array: its elements under their indices from [i]. *)
Fixpoint walkItems (i : nat) (l : list value) (st : S) : outcome S :=
  match l with
  | [] => Done st
  | fieldValue :: l' =>
      let newPath := (path ++ [indexKey i])%list in
      st1 <- callback (indexKey i) fieldValue newPath obj st ;;
      st2 <- walk fieldValue newPath st1 ;;
      walkItems (Datatypes.S i) l' st2
  end.
End Entries.

(** Modelled from the spec: [helpers/walk-object.js] is not among the
    sources.  The walker visits every key/value pair at every nesting depth,
    depth-first and in enumeration order, and calls the visitor with the
    key, the value, the path (the keys from the root, the visited key
    last) and the enclosing object, before it descends into the value.  An
    array is an object whose keys are its indices.  [S] is the state the
    visitor updates (here the array of errors it pushes to). *)
Fixpoint walkObject (obj : value) (path : list string) (st : S) {struct obj}
  : outcome S :=
  match obj with
  | VObj fields => walkFields walkObject obj path fields st
  | VArr items => walkItems walkObject obj path 0 items st
  | _ => Done st
  end.
End Walker.

(** One call of the visitor: [(name, value, path, obj)]. *)
Record visit : Type :=
  { v_name : string; v_value : value; v_path : list string; v_obj : value }.

Section Visits.
Variable visitsOf : value -> list string -> list visit.
Variable obj : value.
Variable path : list string.

Fixpoint visitFields (l : list (string * value)) : list visit :=
  match l with
  | [] => []
  | (fieldName, fieldValue) :: l' =>
      let newPath := (path ++ [fieldName])%list in
      Build_visit fieldName fieldValue newPath obj
        :: (visitsOf fieldValue newPath ++ visitFields l')%list
  end.

Fixpoint visitItems (i : nat) (l : list value) : list visit :=
  match l with
  | [] => []
  | fieldValue :: l' =>
      let newPath := (path ++ [indexKey i])%list in
      Build_visit (indexKey i) fieldValue newPath obj
        :: (visitsOf fieldValue newPath ++ visitItems (Datatypes.S i) l')%list
  end.
End Visits.

(** The calls the walker makes on [obj] reached by [path], in order. *)
Fixpoint visits (obj : value) (path : list string) {struct obj} : list visit :=
  match obj with
  | VObj fields => visitFields visits obj path fields
  | VArr items => visitItems visits obj path 0 items
  | _ => []
  end.

(** ** The validator, over a given [schemaStructure] *)

Section Validator.
Variable schemaStructure : SchemaStructure.

(** [function findType(type)] *)
Definition findType (type : string) : option TypeNode :=
  let cleanType := cleanName type in
  find (fun typeObj => type_name typeObj =? cleanType) (types schemaStructure).

(** [function getPropsForType(type)], with a budget of nested calls. *)
Fixpoint getPropsForType (fuel : nat) (type : string) : outcome (list string) :=
  match fuel with
  | O => Timeout
  | Datatypes.S fuel' =>
      let cleanType := cleanName type in
      let props :=
        map prop_name
          (filter (fun prop => includes (prop_parent prop) cleanType)
             (properties schemaStructure)) in
      match findType type with
      | None => Raise (UnableToGetProps type)
      | Some foundType =>
          let parentTypes := type_parent foundType in
          reduceM
            (fun allProps type =>
               inherited <- getPropsForType fuel' type ;;
               Done (allProps ++ inherited)%list)
            parentTypes props
      end
  end.

(** [!findType(t)] on an element of [types]: [cleanName] calls [t.replace],
    which only a string has. *)
Definition isUnknownType (t : value) : outcome bool :=
  match t with
  | VStr type =>
      Done (match findType type with Some _ => false | None => true end)
  | _ => Raise TypeError
  end.

(** The body of [unknownTypes.forEach]: the elements that reached it passed
    [findType], so they are strings. *)
Definition unrecognizedMessages (unknownTypes : list value) : list string :=
  flat_map
    (fun t =>
       match t with
       | VStr type =>
           if Str.testSchemaOrgUrl type
           then ["Unrecognized schema.org type " ++ type]
           else []
       | _ => []
       end)
    unknownTypes.

(** [`Unexpected property "${key}"`] *)
Definition unexpectedProperty (key : string) : string :=
  "Unexpected property " ++ Str.dquote ++ key ++ Str.dquote.

(** [function validateObjectKeys(typeOrTypes, keys)] *)
Definition validateObjectKeys (fuel : nat) (typeOrTypes : value)
    (keys : list string) : outcome (list string) :=
  let declared :=
    match typeOrTypes with
    | VStr s => Some [VStr s]
    | VArr items => Some items
    | _ => None
    end in
  match declared with
  | None => Done ["Unknown value type"]
  | Some types =>
      unknownTypes <- filterM isUnknownType types ;;
      match unknownTypes with
      | _ :: _ => Done (unrecognizedMessages unknownTypes)
      | [] =>
          safelist <-
            reduceM
              (fun safelist t =>
                 match t with
                 | VStr type =>
                     knownProps <- getPropsForType fuel type ;;
                     Done (safelist ++ knownProps)%list
                 | _ => Raise TypeError
                 end)
              types [] ;;
          let cleanKeys :=
            map cleanName (filter Str.indexOfAtIsNot0 keys) in
          Done
            (map unexpectedProperty
               (filter (fun key => negb (includes safelist key))
                  (map Str.replaceInputOutput cleanKeys)))
      end
  end.

(** The path reported with a message:
    ['/' + path.slice(0, -1).map(cleanName).join('/')] *)
Definition errorPath (path : list string) : string :=
  "/" ++ Str.join "/" (map cleanName (removelast path)).

(** The visitor passed to [walkObject]; the state is the array [errors]. *)
Definition visitor (fuel : nat) (name : string) (val : value)
    (path : list string) (obj : value) (errors : list ValidationError)
  : outcome (list ValidationError) :=
  if name =? TYPE_KEYWORD then
    keyErrorMessages <- validateObjectKeys fuel val (objectKeys obj) ;;
    Done (errors ++
          map (fun message =>
                 {| path := errorPath path; message := message |})
            keyErrorMessages)%list
  else Done errors.

(** [module.exports = function validateSchemaOrg(expandedObj)] *)
Definition validateSchemaOrg (fuel : nat) (expandedObj : value)
  : outcome (list ValidationError) :=
  match expandedObj with
  | VNull => Done []
  | _ =>
      let expandedObj :=
        match expandedObj with
        | VArr [x] => x
        | _ => expandedObj
        end in
      walkObject (visitor fuel) expandedObj [] []
  end.

End Validator.

(** ** Example graphs and documents *)

(** A small excerpt of the vocabulary. *)
Definition sampleGraph : SchemaStructure :=
  {| types :=
       [ {| type_name := "Thing"; type_parent := [] |};
         {| type_name := "Person"; type_parent := ["Thing"] |};
         {| type_name := "Organization"; type_parent := ["Thing"] |} ];
     properties :=
       [ {| prop_name := "name"; prop_parent := ["Thing"] |};
         {| prop_name := "birthDate"; prop_parent := ["Person"] |};
         {| prop_name := "employee"; prop_parent := ["Organization"] |} ] |}.

(** A graph in which a type is its own parent. *)
Definition selfParentGraph : SchemaStructure :=
  {| types := [ {| type_name := "Thing"; type_parent := ["Thing"] |} ];
     properties := [ {| prop_name := "name"; prop_parent := ["Thing"] |} ] |}.

(** A graph whose type [Person] names a parent that is absent. *)
Definition danglingGraph : SchemaStructure :=
  {| types := [ {| type_name := "Person"; type_parent := ["Agent"] |} ];
     properties := [ {| prop_name := "name"; prop_parent := ["Person"] |} ] |}.

Definition personDoc : value :=
  VObj [ ("@type", VArr [VStr "http://schema.org/Person"]);
         ("http://schema.org/name", VArr [VObj [("@value", VStr "x")]]);
         ("http://schema.org/unknownProp", VArr [VObj [("@value", VStr "y")]]) ].

Definition nestedDoc : value :=
  VObj [ ("@type", VStr "Organization");
         ("http://schema.org/employee",
          VObj [ ("@type", VStr "Person");
                 ("http://schema.org/colour", VStr "red") ]) ].

(** ** Notions used in the statements *)

(** [getPropsForType(type)] comes to an end (it returns or throws) when some
    budget of nested calls suffices. *)
Definition terminates (g : SchemaStructure) (type : string) : Prop :=
  exists fuel, getPropsForType g fuel type <> Timeout.

(** The parent links hold no cycle: the types can be ranked so that every
    parent ranks strictly below its child. *)
Definition acyclic (g : SchemaStructure) : Prop :=
  exists rank : string -> nat,
    forall node p,
      In node (types g) -> In p (type_parent node) ->
      rank (cleanName p) < rank (type_name node).

(** The invariant of the type graph: every name in a parent list resolves. *)
Definition parentsResolve (g : SchemaStructure) : Prop :=
  forall node p,
    In node (types g) -> In p (type_parent node) -> findType g p <> None.

(** The document the walker is started on. *)
Definition unwrapSingle (expandedObj : value) : value :=
  match expandedObj with
  | VArr [x] => x
  | _ => expandedObj
  end.

(** A value of the type keyword as expanded JSON-LD has it: when it is an
    array, its elements are strings. *)
Definition typeValueOk (typeOrTypes : value) : bool :=
  match typeOrTypes with
  | VArr items =>
      forallb (fun t => match t with VStr _ => true | _ => false end) items
  | _ => true
  end.

(** Every type keyword of the document has such a value. *)
Definition typeKeywordsOk (expandedObj : value) : bool :=
  forallb
    (fun v => if v_name v =? TYPE_KEYWORD then typeValueOk (v_value v) else true)
    (visits (unwrapSingle expandedObj) []).

(** [keys] without the keys that start with [@]. *)
Definition withoutKeywords (keys : list string) : list string :=
  filter Str.indexOfAtIsNot0 keys.

(** [typeOrTypes] is a type identifier or a sequence of type identifiers,
    and [declared] lists the identifiers it declares. *)
Definition declares (typeOrTypes : value) (declared : list string) : Prop :=
  typeOrTypes = VArr (map VStr declared) \/
  exists t, typeOrTypes = VStr t /\ declared = [t].

(** [`Unrecognized schema.org type ${type}`] *)
Definition unrecognizedType (type : string) : string :=
  "Unrecognized schema.org type " ++ type.

(** The type is absent from the graph. *)
Definition isMissing (g : SchemaStructure) (type : string) : bool :=
  match findType g type with Some _ => false | None => true end.

(** The visitor applied to a recorded visit. *)
Definition callOn {S : Type}
    (callback : string -> value -> list string -> value -> S -> outcome S)
    (st : S) (v : visit) : outcome S :=
  callback (v_name v) (v_value v) (v_path v) (v_obj v) st.

(** The errors pushed for one visit of the type keyword whose key validation
    returned the messages [snd r]. *)
Definition reported (r : visit * list string) : list ValidationError :=
  map (fun m =>
         {| path := "/" ++ Str.join "/"
                             (map cleanName (removelast (v_path (fst r))));
            message := m |})
    (snd r).

(** The outcome is not the error of [getPropsForType]. *)
Definition notMissingType {A : Type} (r : outcome A) : Prop :=
  match r with
  | Raise (UnableToGetProps _) => False
  | _ => True
  end.

(** The highest rank among the types of the graph. *)
Definition maxRank (rank : string -> nat) (g : SchemaStructure) : nat :=
  list_max (map (fun node => rank (type_name node)) (types g)).

(** [ancestorOf g t a]: the name [a] is reached from [t] along the parent
    links, each followed through [findType]: [t] itself, or what is reached
    from a name in the parent list of the node found for [t]. *)
Inductive ancestorOf (g : SchemaStructure) : string -> string -> Prop :=
| ancestor_self (t : string) : ancestorOf g t t
| ancestor_parent (t : string) (node : TypeNode) (p a : string) :
    findType g t = Some node -> In p (type_parent node) ->
    ancestorOf g p a -> ancestorOf g t a.

(** The name under which a key is looked up in the allow-list and reported:
    [cleanName(key).replace(/-(input|output)$/, '')]. *)
Definition propertyName (key : string) : string :=
  Str.replaceInputOutput (cleanName key).

(** A property of the graph declared on the type named [a]. *)
Definition declaredOn (g : SchemaStructure) (a x : string) : Prop :=
  exists prop,
    In prop (properties g) /\
    includes (prop_parent prop) (cleanName a) = true /\
    prop_name prop = x.

(** * Properties *)

(** ** Evaluation on examples *)

Example cleanName_http : cleanName "http://schema.org/Person" = "Person".
Proof. reflexivity. Qed.
Example cleanName_https : cleanName "https://schema.org/name" = "name".
Proof. reflexivity. Qed.
Example cleanName_bare : cleanName "Person" = "Person".
Proof. reflexivity. Qed.
Example cleanName_inner : cleanName "xhttp://schema.org/y" = "xy".
Proof. reflexivity. Qed.
Example replaceInputOutput_ex :
  Str.replaceInputOutput "query-input" = "query" /\
  Str.replaceInputOutput "result-output" = "result" /\
  Str.replaceInputOutput "-input-x" = "-input-x".
Proof. repeat split. Qed.

(** Scenario A of the specification. *)
Example scenario_A :
  validateSchemaOrg sampleGraph 3 personDoc =
  Done [ {| path := "/";
            message := unexpectedProperty "unknownProp" |} ].
Proof. reflexivity. Qed.

(** Scenario B: an unknown schema.org type. *)
Example scenario_B :
  validateSchemaOrg sampleGraph 3
    (VObj [("@type", VStr "https://schema.org/NotAType")]) =
  Done [ {| path := "/";
            message := "Unrecognized schema.org type https://schema.org/NotAType" |} ].
Proof. reflexivity. Qed.

(** Scenario C: an unknown type of another vocabulary. *)
Example scenario_C :
  validateSchemaOrg sampleGraph 3
    (VObj [("@type", VStr "SomeExternalVocabType"); ("anything", VNull)]) =
  Done [].
Proof. reflexivity. Qed.

(** Scenario D: the allow-list of several types is their union. *)
Example scenario_D :
  validateSchemaOrg sampleGraph 3
    (VObj [("@type", VArr [VStr "Person"; VStr "Organization"]);
           ("http://schema.org/birthDate", VStr "1970");
           ("http://schema.org/employee", VStr "e")]) =
  Done [].
Proof. reflexivity. Qed.

(** Scenario E: the path of a nested violation. *)
Example scenario_E :
  validateSchemaOrg sampleGraph 3 nestedDoc =
  Done [ {| path := "/employee"; message := unexpectedProperty "colour" |} ].
Proof. reflexivity. Qed.

(** ** The regular expressions *)

Module StrFacts.
Import Str.

Lemma dropLiteral_spec lit : forall s r,
  dropLiteral lit s = Some r <-> s = lit ++ r.
Proof.
  induction lit as [|c lit IH]; intros s r; simpl.
  - split; [intros [= ->] | intros ->]; reflexivity.
  - destruct s as [|d s].
    + split; discriminate.
    + destruct (Ascii.eqb c d) eqn:E.
      * apply Ascii.eqb_eq in E; subst d. rewrite IH.
        split; [intros -> | intros [= ->]]; reflexivity.
      * apply Ascii.eqb_neq in E. split; [discriminate|].
        intros [= -> _]. now elim E.
  Qed.

Lemma matchSchemaOrgUrl_spec s r :
  matchSchemaOrgUrl s = Some r <-> exists u, isSchemaOrgUrl u /\ s = u ++ r.
Proof.
  split.
  - unfold matchSchemaOrgUrl.
    destruct (dropLiteral "http" s) as [t|] eqn:E1; [|discriminate].
    apply dropLiteral_spec in E1; subst s.
    destruct (dropLiteral "s" t) as [t'|] eqn:E2.
    + apply dropLiteral_spec in E2; subst t.
      destruct (dropLiteral "://schema.org/" t') as [t''|] eqn:E3.
      * apply dropLiteral_spec in E3; subst t'. intros [= ->].
        exists "https://schema.org/". split; [now right | reflexivity].
      * intros E4. apply dropLiteral_spec in E4. discriminate.
    + intros E3. apply dropLiteral_spec in E3; subst t.
      exists "http://schema.org/". split; [now left | reflexivity].
  - intros (u & [-> | ->] & ->); reflexivity.
Qed.

Lemma replace_unfold s :
  replaceSchemaOrgUrl s =
  match matchSchemaOrgUrl s with
  | Some rest => rest
  | None => match s with
            | EmptyString => EmptyString
            | String c s' => String c (replaceSchemaOrgUrl s')
            end
  end.
Proof. destruct s; reflexivity. Qed.

Lemma test_unfold s :
  testSchemaOrgUrl s =
  match matchSchemaOrgUrl s with
  | Some _ => true
  | None => match s with
            | EmptyString => false
            | String _ s' => testSchemaOrgUrl s'
            end
  end.
Proof. destruct s; reflexivity. Qed.

Lemma test_contains s :
  testSchemaOrgUrl s = true <-> containsSchemaOrgUrl s.
Proof.
  split.
  - induction s as [|c s IH]; rewrite test_unfold.
    + discriminate.
    + destruct (matchSchemaOrgUrl (String c s)) as [r|] eqn:E.
      * intros _. apply matchSchemaOrgUrl_spec in E as (u & Hu & Hs).
        exists "", u, r. now split.
      * intros H. destruct (IH H) as (pre & u & rest & Hu & ->).
        exists (String c pre), u, rest. now split.
  - intros (pre & u & rest & Hu & ->).
    induction pre as [|c pre IH]; rewrite test_unfold.
    + replace (matchSchemaOrgUrl ("" ++ u ++ rest)) with (Some rest);
        [reflexivity|].
      symmetry. apply matchSchemaOrgUrl_spec. now exists u.
    + destruct (matchSchemaOrgUrl _); [reflexivity | exact IH].
Qed.

Lemma test_false_contains s :
  testSchemaOrgUrl s = false <-> ~ containsSchemaOrgUrl s.
Proof.
  rewrite <- test_contains. destruct (testSchemaOrgUrl s); split;
    congruence.
Qed.

Lemma replace_no_match s :
  testSchemaOrgUrl s = false -> replaceSchemaOrgUrl s = s.
Proof.
  induction s as [|c s IH]; rewrite test_unfold, replace_unfold.
  - reflexivity.
  - destruct (matchSchemaOrgUrl (String c s)); [discriminate|].
    intros H. now rewrite IH.
Qed.

Lemma append_length (a b : string) : length (a ++ b) = length a + length b.
Proof. induction a; simpl; auto. Qed.

Lemma replace_shrinks s :
  testSchemaOrgUrl s = true -> length (replaceSchemaOrgUrl s) < length s.
Proof.
  induction s as [|c s IH]; rewrite test_unfold, replace_unfold.
  - discriminate.
  - destruct (matchSchemaOrgUrl (String c s)) as [r|] eqn:E.
    + intros _. apply matchSchemaOrgUrl_spec in E as (u & [-> | ->] & ->);
        rewrite append_length; simpl; lia.
    + intros H. specialize (IH H). simpl. lia.
Qed.

Lemma replace_leftmost uri pre u rest :
  leftmostUrlAt uri pre u rest -> replaceSchemaOrgUrl uri = pre ++ rest.
Proof.
  revert uri. induction pre as [|c pre IH]; intros uri (Hu & -> & Hmin);
    rewrite replace_unfold.
  - replace (matchSchemaOrgUrl ("" ++ u ++ rest)) with (Some rest);
      [reflexivity|].
    symmetry. apply matchSchemaOrgUrl_spec. now exists u.
  - destruct (matchSchemaOrgUrl _) as [r|] eqn:E.
    + apply matchSchemaOrgUrl_spec in E as (u' & Hu' & E).
      specialize (Hmin "" u' r Hu' E). simpl in Hmin. lia.
    + simpl. f_equal. apply IH. repeat split; trivial.
      intros pre' u' rest' Hu' E'.
      specialize (Hmin (String c pre') u' rest' Hu').
      simpl in Hmin. rewrite E' in Hmin. specialize (Hmin eq_refl). lia.
Qed.

End StrFacts.

(** ** [cleanName] *)

Lemma cleanName_fixed_iff (s : string) :
  cleanName s = s <-> ~ containsSchemaOrgUrl s.
Proof.
  unfold cleanName. split.
  - intros E C. apply StrFacts.test_contains in C.
    apply StrFacts.replace_shrinks in C. rewrite E in C. lia.
  - intros H. apply StrFacts.replace_no_match.
    now apply StrFacts.test_false_contains.
Qed.

(** C8, as the code has it: [cleanName] removes the leftmost occurrence of
    "http://schema.org/" or "https://schema.org/" wherever it starts (so a
    leading one in particular), and returns its argument unchanged exactly
    when the argument contains no occurrence at all. *)
Theorem cleanName_removes_leftmost_url (uri : string) :
  (forall pre u rest,
      leftmostUrlAt uri pre u rest -> cleanName uri = pre ++ rest) /\
  (forall rest, cleanName ("http://schema.org/" ++ rest) = rest) /\
  (forall rest, cleanName ("https://schema.org/" ++ rest) = rest) /\
  (cleanName uri = uri <-> ~ containsSchemaOrgUrl uri).
Proof.
  split; [|split; [|split]].
  - intros pre u rest H. exact (StrFacts.replace_leftmost uri pre u rest H).
  - reflexivity.
  - reflexivity.
  - apply cleanName_fixed_iff.
Qed.

(** C8, as the specification words it, fails: a string that does not start
    with the URL but holds it further on is changed. *)
Lemma cleanName_strips_inner_url :
  Str.dropLiteral "http://schema.org/" "xhttp://schema.org/y" = None /\
  Str.dropLiteral "https://schema.org/" "xhttp://schema.org/y" = None /\
  cleanName "xhttp://schema.org/y" <> "xhttp://schema.org/y".
Proof. repeat split. discriminate. Qed.

Lemma cleanName_removes_leftmost_url_witness :
  cleanName "xhttp://schema.org/y" = "x" ++ "y".
Proof.
  apply (proj1 (cleanName_removes_leftmost_url "xhttp://schema.org/y")
           "x" "http://schema.org/" "y").
  split; [now left | split; [reflexivity|]].
  intros pre' u' rest' Hu' E. destruct pre' as [|c pre']; simpl; [|lia].
  destruct Hu' as [-> | ->]; discriminate E.
Defined.

(** C3, as the code has it: a second application of [cleanName] changes
    nothing exactly when the first result holds no further occurrence of the
    URL. *)
Theorem cleanName_idempotent_iff (x : string) :
  cleanName (cleanName x) = cleanName x <->
  ~ containsSchemaOrgUrl (cleanName x).
Proof. apply cleanName_fixed_iff. Qed.

(** C3 on a name with one leading prefix. *)
Lemma cleanName_idempotent_iff_witness :
  cleanName (cleanName "https://schema.org/Person")
  = cleanName "https://schema.org/Person".
Proof.
  apply (proj2 (cleanName_idempotent_iff "https://schema.org/Person")).
  apply StrFacts.test_false_contains. reflexivity.
Defined.

(** C3, as the specification words it, fails: a doubled prefix loses one
    copy at each application. *)
Lemma cleanName_not_idempotent :
  cleanName (cleanName "http://schema.org/http://schema.org/Person")
  <> cleanName "http://schema.org/http://schema.org/Person".
Proof. discriminate. Qed.

(** ** [getPropsForType] *)

Section GetProps.
Variable g : SchemaStructure.

Lemma findType_some type node :
  findType g type = Some node ->
  In node (types g) /\ type_name node = cleanName type.
Proof.
  unfold findType. intros H. apply find_some in H as [Hin Heq].
  split; [exact Hin | now apply String.eqb_eq].
Qed.

Lemma getPropsForType_S fuel type :
  getPropsForType g (S fuel) type =
  match findType g type with
  | None => Raise (UnableToGetProps type)
  | Some foundType =>
      reduceM
        (fun allProps type =>
           inherited <- getPropsForType g fuel type ;;
           Done (allProps ++ inherited)%list)
        (type_parent foundType)
        (map prop_name
           (filter (fun prop => includes (prop_parent prop) (cleanName type))
              (properties g)))
  end.
Proof. reflexivity. Qed.

(** A larger budget does not change an outcome that was reached. *)
Lemma getPropsForType_mono fuel : forall type fuel',
  getPropsForType g fuel type <> Timeout -> fuel <= fuel' ->
  getPropsForType g fuel' type = getPropsForType g fuel type.
Proof.
  induction fuel as [|fuel IH]; intros type fuel' H Hle.
  - now elim H.
  - destruct fuel' as [|fuel']; [lia|]. apply le_S_n in Hle.
    rewrite !getPropsForType_S in *.
    destruct (findType g type) as [node|]; [|reflexivity].
    revert H. generalize (map prop_name
           (filter (fun prop => includes (prop_parent prop) (cleanName type))
              (properties g))).
    induction (type_parent node) as [|p ps IHps]; intros acc H; simpl in *.
    + reflexivity.
    + destruct (getPropsForType g fuel p) as [l|e|] eqn:E.
      * rewrite (IH p fuel'), E by (congruence || assumption).
        simpl in *. now apply IHps.
      * rewrite (IH p fuel'), E by (congruence || assumption). reflexivity.
      * now elim H.
Qed.

Lemma getPropsForType_det fuel1 fuel2 type l1 l2 :
  getPropsForType g fuel1 type = Done l1 ->
  getPropsForType g fuel2 type = Done l2 -> l1 = l2.
Proof.
  intros H1 H2. destruct (Nat.le_ge_cases fuel1 fuel2) as [Hle|Hle].
  - rewrite (getPropsForType_mono fuel1 type fuel2) in H2;
      congruence.
  - rewrite (getPropsForType_mono fuel2 type fuel1) in H1;
      congruence.
Qed.

(** When every parent resolves within one budget, the reduction returns
    the accumulator followed by what each parent contributes. *)
Lemma reduce_parents_done fuel : forall parents acc,
  (forall p, In p parents -> exists l, getPropsForType g fuel p = Done l) ->
  exists props,
    reduceM
      (fun allProps type =>
         inherited <- getPropsForType g fuel type ;;
         Done (allProps ++ inherited)%list) parents acc = Done props /\
    incl acc props /\
    forall p l, In p parents -> getPropsForType g fuel p = Done l ->
                incl l props.
Proof.
  induction parents as [|p ps IH]; intros acc H; simpl.
  - exists acc. split; [reflexivity|]. split; [apply incl_refl|].
    intros ? ? [].
  - destruct (H p (or_introl eq_refl)) as [l Hl]. rewrite Hl. simpl.
    destruct (IH (acc ++ l)%list) as (props & Hr & Hacc & Hps).
    { intros q Hq. apply H. now right. }
    exists props. split; [exact Hr|]. split.
    + intros x Hx. apply Hacc, in_or_app. now left.
    + intros q lq [<- | Hq] Hlq.
      * assert (lq = l) by congruence. subst lq.
        intros x Hx. apply Hacc, in_or_app. now right.
      * now apply (Hps q).
Qed.

Lemma common_budget : forall parents,
  (forall p, In p parents -> exists fuel l, getPropsForType g fuel p = Done l) ->
  exists fuel, forall p, In p parents ->
                         exists l, getPropsForType g fuel p = Done l.
Proof.
  induction parents as [|p ps IH]; intros H.
  - exists 0. intros ? [].
  - destruct (H p (or_introl eq_refl)) as (f1 & l & Hl).
    destruct IH as [f2 Hf2]. { intros q Hq. apply H. now right. }
    exists (Nat.max f1 f2). intros q [<- | Hq].
    + exists l. rewrite (getPropsForType_mono f1); [exact Hl | congruence | lia].
    + destruct (Hf2 q Hq) as [lq Hlq]. exists lq.
      rewrite (getPropsForType_mono f2); [exact Hlq | congruence | lia].
Qed.

(** C6: inheritance monotonicity.  For a type [T] of the graph whose direct
    parents all resolve to a property list, [getPropsForType(T)] returns a
    list, and it holds every property name [getPropsForType] returns for
    any of the parents. *)
Theorem getPropsForType_inherits (T : string) (node : TypeNode) :
  findType g T = Some node ->
  (forall P, In P (type_parent node) ->
             exists fuel props, getPropsForType g fuel P = Done props) ->
  exists fuel propsT,
    getPropsForType g fuel T = Done propsT /\
    forall P fuelP propsP,
      In P (type_parent node) ->
      getPropsForType g fuelP P = Done propsP ->
      incl propsP propsT.
Proof.
  intros Hfind Hparents.
  destruct (common_budget _ Hparents) as [fuel Hfuel].
  destruct (reduce_parents_done fuel (type_parent node)
              (map prop_name
                 (filter (fun prop => includes (prop_parent prop) (cleanName T))
                    (properties g))) Hfuel)
    as (propsT & Hred & _ & Hincl).
  exists (S fuel), propsT. split.
  - rewrite getPropsForType_S, Hfind. exact Hred.
  - intros P fuelP propsP HP HpropsP.
    destruct (Hfuel P HP) as [l Hl].
    rewrite (getPropsForType_det _ _ _ _ _ HpropsP Hl).
    now apply (Hincl P).
Qed.

Lemma reduce_parents_terminates fuel : forall parents acc,
  (forall p, In p parents -> getPropsForType g fuel p <> Timeout) ->
  reduceM
    (fun allProps type =>
       inherited <- getPropsForType g fuel type ;;
       Done (allProps ++ inherited)%list) parents acc <> Timeout.
Proof.
  induction parents as [|p ps IH]; intros acc H; simpl.
  - discriminate.
  - destruct (getPropsForType g fuel p) as [l|e|] eqn:E; simpl.
    + apply IH. intros q Hq. apply H. now right.
    + discriminate.
    + elim (H p (or_introl eq_refl)). exact E.
Qed.

Lemma getPropsForType_ranked (rank : string -> nat) :
  (forall node p, In node (types g) -> In p (type_parent node) ->
                  rank (cleanName p) < rank (type_name node)) ->
  forall fuel type,
    rank (cleanName type) < fuel -> getPropsForType g fuel type <> Timeout.
Proof.
  intros Hrank. induction fuel as [|fuel IH]; intros type Hlt; [lia|].
  rewrite getPropsForType_S.
  destruct (findType g type) as [node|] eqn:E; [|discriminate].
  apply findType_some in E as [Hin Hname].
  apply reduce_parents_terminates. intros p Hp. apply IH.
  specialize (Hrank node p Hin Hp). rewrite Hname in Hrank. lia.
Qed.

(** C2, as the code has it: on a graph whose parent links hold no cycle,
    [getPropsForType] comes to an end for every type, under every budget
    from some budget on. *)
Theorem getPropsForType_terminates_acyclic :
  acyclic g ->
  forall type, exists fuel, forall fuel',
      fuel <= fuel' -> getPropsForType g fuel' type <> Timeout.
Proof.
  intros [rank Hrank] type. exists (S (rank (cleanName type))).
  intros fuel' Hle. apply (getPropsForType_ranked rank Hrank). lia.
Qed.

End GetProps.

(** C6 applied to [Person], whose only parent is [Thing]. *)
Lemma getPropsForType_inherits_witness :
  exists fuel propsT,
    getPropsForType sampleGraph fuel "Person" = Done propsT /\
    forall P fuelP propsP,
      In P ["Thing"] ->
      getPropsForType sampleGraph fuelP P = Done propsP ->
      incl propsP propsT.
Proof.
  apply (getPropsForType_inherits sampleGraph "Person"
           {| type_name := "Person"; type_parent := ["Thing"] |}).
  - reflexivity.
  - intros P [<- | []]. exists 1, ["name"]. reflexivity.
Defined.

Lemma sampleGraph_acyclic : acyclic sampleGraph.
Proof.
  exists (fun s => if s =? "Thing" then 0 else 1).
  intros node p Hnode Hp. simpl in Hnode.
  destruct Hnode as [<- | [<- | [<- | []]]]; simpl in Hp;
    try destruct Hp as [<- | []]; try contradiction; simpl; lia.
Defined.

(** C2 applied to the sample graph. *)
Lemma getPropsForType_terminates_acyclic_witness :
  exists fuel, forall fuel',
      fuel <= fuel' -> getPropsForType sampleGraph fuel' "Person" <> Timeout.
Proof.
  exact (getPropsForType_terminates_acyclic sampleGraph sampleGraph_acyclic
           "Person").
Defined.

(** C2, as the specification words it, fails: there is no record of the
    types already visited, and on a type that is its own parent the walk
    exhausts every budget. *)
Lemma getPropsForType_cycle_diverges :
  ~ terminates selfParentGraph "Thing".
Proof.
  intros [fuel H]. apply H. clear H.
  induction fuel as [|fuel IH]; [reflexivity|].
  rewrite getPropsForType_S. simpl. rewrite IH. reflexivity.
Qed.

(** ** [validateObjectKeys] *)

Section KeyValidator.
Variable g : SchemaStructure.

Lemma filterM_strings : forall declared,
  filterM (isUnknownType g) (map VStr declared) =
  Done (map VStr (filter (isMissing g) declared)).
Proof.
  induction declared as [|t ts IH]; simpl; [reflexivity|].
  rewrite IH. unfold isMissing. simpl.
  destruct (findType g t); reflexivity.
Qed.

Lemma unrecognizedMessages_strings : forall unknown,
  unrecognizedMessages (map VStr unknown) =
  map unrecognizedType (filter Str.testSchemaOrgUrl unknown).
Proof.
  unfold unrecognizedMessages, unrecognizedType.
  induction unknown as [|t ts IH]; [reflexivity|].
  cbn [map flat_map filter]. rewrite IH.
  destruct (Str.testSchemaOrgUrl t); reflexivity.
Qed.

Lemma unrecognized_not_unexpected type key :
  unrecognizedType type <> unexpectedProperty key.
Proof. discriminate. Qed.

(** What the call returns when a declared type is missing. *)
Lemma validateObjectKeys_missing fuel typeOrTypes declared keys :
  declares typeOrTypes declared ->
  filter (isMissing g) declared <> [] ->
  validateObjectKeys g fuel typeOrTypes keys =
  Done (map unrecognizedType
          (filter Str.testSchemaOrgUrl (filter (isMissing g) declared))).
Proof.
  intros Hdecl Hmiss.
  assert (E : validateObjectKeys g fuel (VArr (map VStr declared)) keys =
              validateObjectKeys g fuel typeOrTypes keys).
  { destruct Hdecl as [-> | (t & -> & ->)]; reflexivity. }
  rewrite <- E. unfold validateObjectKeys. rewrite filterM_strings. simpl.
  destruct (filter (isMissing g) declared) as [|u us] eqn:F; [now elim Hmiss|].
  rewrite <- unrecognizedMessages_strings. reflexivity.
Qed.

(** C1: when some declared type is not found in the graph, the call returns
    exactly one "Unrecognized schema.org type" message for each missing
    type that matches the schema.org URL pattern, in order, and nothing
    else: no "Unexpected property" message is among them, whatever the
    keys are. *)
Theorem validateObjectKeys_unknown_type_only
    (fuel : nat) (typeOrTypes : value) (declared keys : list string) :
  declares typeOrTypes declared ->
  (exists t, In t declared /\ findType g t = None) ->
  exists msgs,
    validateObjectKeys g fuel typeOrTypes keys = Done msgs /\
    msgs = map unrecognizedType
             (filter Str.testSchemaOrgUrl (filter (isMissing g) declared)) /\
    (forall m, In m msgs ->
               exists t, m = unrecognizedType t /\ In t declared /\
                         findType g t = None /\
                         Str.testSchemaOrgUrl t = true) /\
    (forall m key, In m msgs -> m <> unexpectedProperty key).
Proof.
  intros Hdecl (t & Ht & Hnone).
  assert (Hmiss : filter (isMissing g) declared <> []).
  { intros E. assert (Hin : In t (filter (isMissing g) declared)).
    { apply filter_In. split; [exact Ht|]. unfold isMissing. now rewrite Hnone. }
    rewrite E in Hin. exact Hin. }
  eexists. split;
    [exact (validateObjectKeys_missing fuel typeOrTypes declared keys Hdecl Hmiss)|].
  split; [reflexivity|].
  assert (Hshape : forall m,
    In m (map unrecognizedType
            (filter Str.testSchemaOrgUrl (filter (isMissing g) declared))) ->
    exists t, m = unrecognizedType t /\ In t declared /\
              findType g t = None /\ Str.testSchemaOrgUrl t = true).
  { intros m Hm. apply in_map_iff in Hm as (u & <- & Hu).
    apply filter_In in Hu as [Hu Htest]. apply filter_In in Hu as [Hu Hmis].
    exists u. repeat split; trivial.
    unfold isMissing in Hmis. destruct (findType g u); [discriminate|reflexivity]. }
  split; [exact Hshape|].
  intros m key Hm. destruct (Hshape m Hm) as (u & -> & _).
  apply unrecognized_not_unexpected.
Qed.

(** C9: the keys that start with [@] do not count.  Two key lists that
    differ only by such keys give the same outcome, for every value of the
    type keyword. *)
Theorem validateObjectKeys_ignores_keywords
    (fuel : nat) (typeOrTypes : value) (keys keys' : list string) :
  withoutKeywords keys = withoutKeywords keys' ->
  validateObjectKeys g fuel typeOrTypes keys =
  validateObjectKeys g fuel typeOrTypes keys'.
Proof.
  intros H. unfold validateObjectKeys, withoutKeywords in *.
  now rewrite H.
Qed.

Lemma filter_all {A : Type} (f : A -> bool) : forall l,
  (forall x, In x l -> f x = true) -> filter f l = l.
Proof.
  induction l as [|x l IH]; intros H; simpl; [reflexivity|].
  rewrite (H x (or_introl eq_refl)). f_equal. apply IH.
  intros y Hy. apply H. now right.
Qed.

(** C10: with an empty array of types no type error is reported and the
    allow-list is empty, so every key that does not start with [@] gets
    its "Unexpected property" message; the result is empty only when no
    such key exists. *)
Theorem validateObjectKeys_no_types (fuel : nat) (keys : list string) :
  validateObjectKeys g fuel (VArr []) keys =
  Done (map (fun key =>
               unexpectedProperty (Str.replaceInputOutput (cleanName key)))
          (withoutKeywords keys)) /\
  (validateObjectKeys g fuel (VArr []) keys = Done [] <->
   withoutKeywords keys = []).
Proof.
  assert (E : validateObjectKeys g fuel (VArr []) keys =
    Done (map (fun key =>
                 unexpectedProperty (Str.replaceInputOutput (cleanName key)))
            (withoutKeywords keys))).
  { unfold validateObjectKeys, withoutKeywords. simpl.
    rewrite filter_all by reflexivity. now rewrite !map_map. }
  split; [exact E|]. rewrite E. split.
  - intros [= H]. now apply map_eq_nil in H.
  - now intros ->.
Qed.

End KeyValidator.

Lemma startsWithAt_iff (key : string) :
  Str.indexOfAtIsNot0 key = false <-> exists rest, key = "@" ++ rest.
Proof.
  destruct key as [|c key]; simpl.
  - split; [discriminate | intros [? [=]]].
  - destruct (Ascii.eqb c "@") eqn:E; simpl.
    + apply Ascii.eqb_eq in E. subst c. split; [now exists key | reflexivity].
    + apply Ascii.eqb_neq in E. split; [discriminate|].
      intros [rest [= -> _]]. now elim E.
Qed.

(** C1 on a multi-typed node with one known and two unknown types. *)
Lemma validateObjectKeys_unknown_type_only_witness :
  exists msgs,
    validateObjectKeys sampleGraph 3
      (VArr (map VStr ["Person"; "https://schema.org/NotAType"; "Foreign"]))
      ["http://schema.org/colour"] = Done msgs /\
    msgs = ["Unrecognized schema.org type https://schema.org/NotAType"] /\
    (forall m, In m msgs ->
               exists t, m = unrecognizedType t /\
                         In t ["Person"; "https://schema.org/NotAType"; "Foreign"] /\
                         findType sampleGraph t = None /\
                         Str.testSchemaOrgUrl t = true) /\
    (forall m key, In m msgs -> m <> unexpectedProperty key).
Proof.
  apply (validateObjectKeys_unknown_type_only sampleGraph 3
           (VArr (map VStr ["Person"; "https://schema.org/NotAType"; "Foreign"]))
           ["Person"; "https://schema.org/NotAType"; "Foreign"]
           ["http://schema.org/colour"]).
  - left. reflexivity.
  - exists "Foreign". split; [simpl; tauto | reflexivity].
Defined.

(** C9 on a key list with and without its keywords. *)
Lemma validateObjectKeys_ignores_keywords_witness :
  validateObjectKeys sampleGraph 3 (VStr "Person")
    ["@type"; "http://schema.org/colour"; "@id"] =
  validateObjectKeys sampleGraph 3 (VStr "Person")
    ["http://schema.org/colour"].
Proof.
  apply (validateObjectKeys_ignores_keywords sampleGraph 3 (VStr "Person")
           ["@type"; "http://schema.org/colour"; "@id"]
           ["http://schema.org/colour"]).
  reflexivity.
Defined.

(** ** The walker and its visits *)

Lemma value_nested_ind (P : value -> Prop) :
  P VNull ->
  (forall b, P (VBool b)) ->
  (forall n, P (VNum n)) ->
  (forall s, P (VStr s)) ->
  (forall items, Forall P items -> P (VArr items)) ->
  (forall fields, Forall (fun kv => P (snd kv)) fields -> P (VObj fields)) ->
  forall v, P v.
Proof.
  intros Hnull Hbool Hnum Hstr Harr Hobj.
  fix IH 1. intros [| b | n | s | items | fields].
  - exact Hnull.
  - apply Hbool.
  - apply Hnum.
  - apply Hstr.
  - apply Harr. induction items as [|x xs IHxs]; constructor;
      [apply IH | exact IHxs].
  - apply Hobj. induction fields as [|[k x] xs IHxs]; constructor;
      [apply IH | exact IHxs].
Qed.

Lemma reduceM_app {A B : Type} (f : A -> B -> outcome A) : forall l1 l2 acc,
  reduceM f (l1 ++ l2) acc = (a <- reduceM f l1 acc ;; reduceM f l2 a).
Proof.
  induction l1 as [|x l1 IH]; intros l2 acc; simpl; [reflexivity|].
  destruct (f acc x); simpl; auto.
Qed.

Section WalkerFacts.
Context {S : Type}.
Variable callback : string -> value -> list string -> value -> S -> outcome S.

(** The walk is the visitor run over the visits, in order, stopping at the
    first call that does not return. *)
Lemma walkObject_visits : forall obj path st,
  walkObject callback obj path st = reduceM (callOn callback) (visits obj path) st.
Proof.
  induction obj as [| | | |items IH|fields IH] using value_nested_ind;
    intros path st; try reflexivity.
  - simpl. generalize (VArr items) as obj, 0 as i. revert st.
    induction IH as [|x xs Hx _ IHxs]; intros st obj i; simpl; [reflexivity|].
    unfold callOn at 1. simpl.
    destruct (callback _ x _ obj st) as [st1| |]; simpl; try reflexivity.
    rewrite reduceM_app, Hx.
    destruct (reduceM (callOn callback) _ st1); simpl; auto.
  - simpl. generalize (VObj fields) as obj. revert st.
    induction IH as [|[k x] xs Hx _ IHxs]; intros st obj; simpl; [reflexivity|].
    unfold callOn at 1. simpl.
    destruct (callback k x _ obj st) as [st1| |]; simpl; try reflexivity.
    rewrite reduceM_app. simpl in Hx. rewrite Hx.
    destruct (reduceM (callOn callback) _ st1); simpl; auto.
Qed.
End WalkerFacts.

(** The path of a visit ends with the visited key. *)
Lemma visits_path_last : forall obj path,
  Forall (fun v => exists parentPath,
              v_path v = (parentPath ++ [v_name v])%list)
    (visits obj path).
Proof.
  induction obj as [| | | |items IH|fields IH] using value_nested_ind;
    intros path; try constructor.
  - simpl. generalize (VArr items) as obj, 0 as i.
    induction IH as [|x xs Hx _ IHxs]; intros obj i; simpl; constructor.
    + now exists path.
    + apply Forall_app. split; [apply Hx | apply IHxs].
  - simpl. generalize (VObj fields) as obj.
    induction IH as [|[k x] xs Hx _ IHxs]; intros obj; simpl; constructor.
    + now exists path.
    + apply Forall_app. split; [apply Hx | apply IHxs].
Qed.

(** ** [validateSchemaOrg] *)

Section DocumentValidator.
Variable g : SchemaStructure.

Lemma validateSchemaOrg_visits fuel expandedObj :
  validateSchemaOrg g fuel expandedObj =
  reduceM (callOn (visitor g fuel)) (visits (unwrapSingle expandedObj) []) [].
Proof.
  unfold validateSchemaOrg.
  destruct expandedObj; try (rewrite walkObject_visits; reflexivity).
  reflexivity.
Qed.

Lemma visitor_run fuel : forall vs acc errors,
  reduceM (callOn (visitor g fuel)) vs acc = Done errors ->
  exists reports : list (visit * list string),
    map fst reports = filter (fun v => v_name v =? TYPE_KEYWORD) vs /\
    Forall (fun r =>
              validateObjectKeys g fuel (v_value (fst r))
                (objectKeys (v_obj (fst r))) = Done (snd r)) reports /\
    errors = (acc ++ flat_map reported reports)%list.
Proof.
  induction vs as [|v vs IH]; intros acc errors; simpl.
  - intros [= <-]. exists []. simpl. now rewrite app_nil_r.
  - unfold callOn at 1, visitor at 1.
    destruct (v_name v =? TYPE_KEYWORD) eqn:E; simpl.
    + destruct (validateObjectKeys g fuel (v_value v) (objectKeys (v_obj v)))
        as [msgs| |] eqn:K; simpl; try discriminate.
      intros H. destruct (IH _ _ H) as (reports & Hfst & Hall & ->).
      exists ((v, msgs) :: reports). simpl. split; [now rewrite Hfst|].
      split; [now constructor|].
      unfold reported at 2, errorPath. simpl. now rewrite <- app_assoc.
    + intros H. destruct (IH _ _ H) as (reports & Hfst & Hall & ->).
      now exists reports.
Qed.

(** C5: the errors of a run are, in the order of the walk, those of the
    visits of the type keyword; the path of such a visit ends with the type
    keyword, and each message of its key validation is reported under the
    path without that last segment, every remaining segment cleaned of the
    schema.org URL, the segments joined by "/" after a leading "/". *)
Theorem validateSchemaOrg_error_paths
    (fuel : nat) (expandedObj : value) (errors : list ValidationError) :
  validateSchemaOrg g fuel expandedObj = Done errors ->
  exists reports : list (visit * list string),
    map fst reports =
      filter (fun v => v_name v =? TYPE_KEYWORD)
        (visits (unwrapSingle expandedObj) []) /\
    Forall (fun r =>
              validateObjectKeys g fuel (v_value (fst r))
                (objectKeys (v_obj (fst r))) = Done (snd r) /\
              exists parentPath,
                v_path (fst r) = (parentPath ++ [TYPE_KEYWORD])%list /\
                forall m, In m (snd r) ->
                  In {| path := "/" ++ Str.join "/" (map cleanName parentPath);
                        message := m |} errors) reports /\
    errors =
      flat_map
        (fun r =>
           map (fun m =>
                  {| path := "/" ++ Str.join "/"
                                      (map cleanName (removelast (v_path (fst r))));
                     message := m |})
             (snd r))
        reports.
Proof.
  rewrite validateSchemaOrg_visits. intros H.
  destruct (visitor_run fuel _ _ _ H) as (reports & Hfst & Hall & ->).
  exists reports. split; [exact Hfst|]. split; [|reflexivity].
  apply Forall_forall. intros r Hr. split.
  - revert r Hr. now apply Forall_forall.
  - assert (Hv : In (fst r)
                   (filter (fun v => v_name v =? TYPE_KEYWORD)
                      (visits (unwrapSingle expandedObj) []))).
    { rewrite <- Hfst. now apply in_map. }
    apply filter_In in Hv as [Hv Hname]. apply String.eqb_eq in Hname.
    pose proof (visits_path_last (unwrapSingle expandedObj) []) as Hlast.
    rewrite Forall_forall in Hlast. destruct (Hlast _ Hv) as [parentPath Hp].
    rewrite Hname in Hp. exists parentPath. split; [exact Hp|].
    intros m Hm. simpl. apply in_flat_map. exists r. split; [exact Hr|].
    unfold reported. rewrite Hp, removelast_last.
    apply in_map_iff. now exists m.
Qed.

(** C7: a root object wrapped in a one-element array is validated as the
    object itself. *)
Theorem validateSchemaOrg_single_element_array
    (fuel : nat) (fields : list (string * value)) :
  validateSchemaOrg g fuel (VArr [VObj fields]) =
  validateSchemaOrg g fuel (VObj fields).
Proof. reflexivity. Qed.

(** The same for every element that is not again a one-element array. *)
Lemma validateSchemaOrg_unwraps (fuel : nat) (x : value) :
  unwrapSingle x = x ->
  validateSchemaOrg g fuel (VArr [x]) = validateSchemaOrg g fuel x.
Proof.
  intros H. rewrite !validateSchemaOrg_visits. simpl. now rewrite H.
Qed.

End DocumentValidator.

(** C5 on the nested document of scenario E. *)
Lemma validateSchemaOrg_error_paths_witness :
  exists reports : list (visit * list string),
    map fst reports =
      filter (fun v => v_name v =? TYPE_KEYWORD) (visits nestedDoc []) /\
    Forall (fun r =>
              validateObjectKeys sampleGraph 3 (v_value (fst r))
                (objectKeys (v_obj (fst r))) = Done (snd r) /\
              exists parentPath,
                v_path (fst r) = (parentPath ++ [TYPE_KEYWORD])%list /\
                forall m, In m (snd r) ->
                  In {| path := "/" ++ Str.join "/" (map cleanName parentPath);
                        message := m |}
                    [ {| path := "/employee";
                         message := unexpectedProperty "colour" |} ]) reports /\
    [ {| path := "/employee"; message := unexpectedProperty "colour" |} ] =
      flat_map
        (fun r =>
           map (fun m =>
                  {| path := "/" ++ Str.join "/"
                                      (map cleanName (removelast (v_path (fst r))));
                     message := m |})
             (snd r))
        reports.
Proof.
  apply (validateSchemaOrg_error_paths sampleGraph 3 nestedDoc).
  reflexivity.
Defined.

(** ** Nothing is thrown *)

Section NoThrow.
Variable g : SchemaStructure.
Hypothesis Hresolve : parentsResolve g.

Lemma bind_notMissingType {A B : Type} (m : outcome A) (k : A -> outcome B) :
  notMissingType m ->
  (forall a, m = Done a -> notMissingType (k a)) ->
  notMissingType (bind m k).
Proof. destruct m as [a|e|]; simpl; auto. Qed.

Lemma reduceM_notMissingType {A B : Type} (f : A -> B -> outcome A) :
  forall l acc,
    (forall a x, In x l -> notMissingType (f a x)) ->
    notMissingType (reduceM f l acc).
Proof.
  induction l as [|x l IH]; intros acc H; simpl; [exact I|].
  apply bind_notMissingType; [apply H; now left|].
  intros a _. apply IH. intros a' y Hy. apply H. now right.
Qed.

Lemma filterM_notMissingType {A : Type} (p : A -> outcome bool) : forall l,
  (forall x, notMissingType (p x)) -> notMissingType (filterM p l).
Proof.
  induction l as [|x l IH]; intros H; simpl; [exact I|].
  apply bind_notMissingType; [apply H|]. intros b _.
  apply bind_notMissingType; [now apply IH|]. intros rest _. exact I.
Qed.

(** On a type of the graph, [getPropsForType] does not throw. *)
Lemma getPropsForType_known fuel : forall type,
  findType g type <> None -> notMissingType (getPropsForType g fuel type).
Proof.
  induction fuel as [|fuel IH]; intros type Hknown; [exact I|].
  rewrite getPropsForType_S.
  destruct (findType g type) as [node|] eqn:E; [|now elim Hknown].
  apply findType_some in E as [Hin _].
  apply reduceM_notMissingType. intros acc p Hp.
  apply bind_notMissingType; [|intros; exact I].
  apply IH. now apply (Hresolve node).
Qed.

(** When no declared type is unknown, every declared type is a string that
    names a type of the graph. *)
Lemma filterM_none_unknown : forall declared,
  filterM (isUnknownType g) declared = Done [] ->
  Forall (fun t => exists type, t = VStr type /\ findType g type <> None)
    declared.
Proof.
  induction declared as [|t ts IH]; simpl; intros H; constructor.
  - destruct t as [| | |type| |]; try discriminate. exists type.
    split; [reflexivity|]. simpl in H.
    destruct (findType g type); [discriminate|].
    destruct (filterM (isUnknownType g) ts); discriminate.
  - apply IH. destruct (isUnknownType g t) as [b| |]; try discriminate.
    simpl in H. destruct (filterM (isUnknownType g) ts) as [rest| |];
      try discriminate.
    simpl in H. destruct b; [discriminate|]. exact H.
Qed.

Lemma validateObjectKeys_notMissingType fuel typeOrTypes keys :
  notMissingType (validateObjectKeys g fuel typeOrTypes keys).
Proof.
  unfold validateObjectKeys.
  destruct (match typeOrTypes with
            | VStr s => Some [VStr s]
            | VArr items => Some items
            | _ => None
            end) as [declared|]; [|exact I].
  apply bind_notMissingType.
  - apply filterM_notMissingType. intros [| | |type| |]; exact I.
  - intros [|u us] Hfilter; [|exact I].
    pose proof (filterM_none_unknown _ Hfilter) as Hknown.
    rewrite Forall_forall in Hknown.
    apply bind_notMissingType; [|intros; exact I].
    apply reduceM_notMissingType. intros acc t Ht.
    destruct (Hknown t Ht) as (type & -> & Hfound).
    apply bind_notMissingType; [|intros; exact I].
    now apply getPropsForType_known.
Qed.

Lemma validateSchemaOrg_notMissingType fuel expandedObj :
  notMissingType (validateSchemaOrg g fuel expandedObj).
Proof.
  rewrite validateSchemaOrg_visits. apply reduceM_notMissingType.
  intros errors v _. unfold callOn, visitor.
  destruct (v_name v =? TYPE_KEYWORD); [|exact I].
  apply bind_notMissingType; [|intros; exact I].
  apply validateObjectKeys_notMissingType.
Qed.

(** With parents ranked below their children, a budget above the rank of a
    type of the graph makes [getPropsForType] return. *)
Lemma getPropsForType_returns (rank : string -> nat) :
  (forall node p, In node (types g) -> In p (type_parent node) ->
                  rank (cleanName p) < rank (type_name node)) ->
  forall fuel type,
    findType g type <> None -> rank (cleanName type) < fuel ->
    exists props, getPropsForType g fuel type = Done props.
Proof.
  intros Hrank. induction fuel as [|fuel IH]; intros type Hknown Hlt; [lia|].
  rewrite getPropsForType_S.
  destruct (findType g type) as [node|] eqn:E; [|now elim Hknown].
  apply findType_some in E as [Hin Hname].
  destruct (reduce_parents_done g fuel (type_parent node)
              (map prop_name
                 (filter (fun prop => includes (prop_parent prop) (cleanName type))
                    (properties g)))) as (props & Hprops & _).
  - intros p Hp. apply IH; [now apply (Hresolve node)|].
    specialize (Hrank node p Hin Hp). rewrite Hname in Hrank. lia.
  - now exists props.
Qed.

Lemma rank_le_maxRank (rank : string -> nat) type :
  findType g type <> None -> rank (cleanName type) <= maxRank rank g.
Proof.
  intros Hknown. destruct (findType g type) as [node|] eqn:E; [|now elim Hknown].
  apply findType_some in E as [Hin <-].
  unfold maxRank.
  assert (H : Forall (fun k => k <= list_max
                         (map (fun node => rank (type_name node)) (types g)))
                (map (fun node => rank (type_name node)) (types g))).
  { now apply list_max_le. }
  rewrite Forall_forall in H. apply H.
  apply in_map_iff. now exists node.
Qed.

Lemma strings_of_items : forall items,
  forallb (fun t => match t with VStr _ => true | _ => false end) items = true ->
  exists declared, items = map VStr declared.
Proof.
  induction items as [|t ts IH]; simpl; intros H.
  - now exists [].
  - apply andb_prop in H as [Ht Hts]. destruct (IH Hts) as [declared ->].
    destruct t as [| | |type| |]; try discriminate.
    now exists (type :: declared).
Qed.

Lemma reduce_types_returns fuel : forall declared acc,
  (forall t, In t declared ->
             exists props, getPropsForType g fuel t = Done props) ->
  exists safelist,
    reduceM
      (fun safelist t =>
         match t with
         | VStr type =>
             knownProps <- getPropsForType g fuel type ;;
             Done (safelist ++ knownProps)%list
         | _ => Raise TypeError
         end) (map VStr declared) acc = Done safelist.
Proof.
  induction declared as [|t ts IH]; intros acc H; simpl.
  - now exists acc.
  - destruct (H t (or_introl eq_refl)) as [props ->]. simpl.
    apply IH. intros u Hu. apply H. now right.
Qed.

Lemma validateObjectKeys_returns (rank : string -> nat) fuel typeOrTypes keys :
  (forall node p, In node (types g) -> In p (type_parent node) ->
                  rank (cleanName p) < rank (type_name node)) ->
  maxRank rank g < fuel ->
  typeValueOk typeOrTypes = true ->
  exists msgs, validateObjectKeys g fuel typeOrTypes keys = Done msgs.
Proof.
  intros Hrank Hfuel Hok.
  assert (Hstrings : forall declared,
    exists msgs,
      validateObjectKeys g fuel (VArr (map VStr declared)) keys = Done msgs).
  { intros declared. unfold validateObjectKeys. rewrite filterM_strings. simpl.
    destruct (filter (isMissing g) declared) as [|u us] eqn:F; simpl;
      [|eexists; reflexivity].
    destruct (reduce_types_returns fuel declared []) as [safelist ->];
      [|eexists; reflexivity].
    intros t Ht. assert (Hknown : findType g t <> None).
    { intros Hnone.
      assert (Hin : In t (filter (isMissing g) declared)).
      { apply filter_In. split; [exact Ht|]. unfold isMissing. now rewrite Hnone. }
      now rewrite F in Hin. }
    apply (getPropsForType_returns rank Hrank); [exact Hknown|].
    pose proof (rank_le_maxRank rank t Hknown). lia. }
  destruct typeOrTypes as [| | |type|items|]; try (eexists; reflexivity).
  - apply (Hstrings [type]).
  - destruct (strings_of_items items Hok) as [declared ->]. apply Hstrings.
Qed.

(** C4: under the invariant of the type graph (every name of a parent list
    resolves), the error "Unable to get props for missing type" never comes
    out of [validateSchemaOrg], for any document and any budget; and in
    normal operation (parent links without a cycle, type keywords holding a
    string or an array of strings) the call returns its error sequence:
    nothing is thrown. *)
Theorem validateSchemaOrg_throws_nothing :
  (forall fuel expandedObj type,
      validateSchemaOrg g fuel expandedObj <> Raise (UnableToGetProps type)) /\
  (acyclic g ->
   forall expandedObj,
     typeKeywordsOk expandedObj = true ->
     exists fuel, forall fuel', fuel <= fuel' ->
       exists errors, validateSchemaOrg g fuel' expandedObj = Done errors).
Proof.
  split.
  - intros fuel expandedObj type E.
    pose proof (validateSchemaOrg_notMissingType fuel expandedObj) as H.
    now rewrite E in H.
  - intros [rank Hrank] expandedObj Hok.
    exists (S (maxRank rank g)). intros fuel Hfuel.
    rewrite validateSchemaOrg_visits.
    unfold typeKeywordsOk in Hok. rewrite forallb_forall in Hok.
    revert Hok. generalize (visits (unwrapSingle expandedObj) []).
    intros vs. generalize (@nil ValidationError).
    induction vs as [|v vs IH]; intros acc Hok; simpl.
    + now exists acc.
    + unfold callOn at 1, visitor at 1.
      pose proof (Hok v (or_introl eq_refl)) as Hv.
      destruct (v_name v =? TYPE_KEYWORD); simpl.
      * destruct (validateObjectKeys_returns rank fuel (v_value v)
                    (objectKeys (v_obj v)) Hrank) as [msgs ->];
          [lia | exact Hv |].
        simpl. apply IH. intros u Hu. apply Hok. now right.
      * apply IH. intros u Hu. apply Hok. now right.
Qed.

End NoThrow.

Lemma sampleGraph_parentsResolve : parentsResolve sampleGraph.
Proof.
  intros node p Hnode Hp. simpl in Hnode.
  destruct Hnode as [<- | [<- | [<- | []]]]; simpl in Hp;
    try destruct Hp as [<- | []]; try contradiction; discriminate.
Defined.

(** C4 on the sample graph and the nested document. *)
Lemma validateSchemaOrg_throws_nothing_witness :
  (forall type,
      validateSchemaOrg sampleGraph 3 nestedDoc <> Raise (UnableToGetProps type)) /\
  exists fuel, forall fuel', fuel <= fuel' ->
    exists errors, validateSchemaOrg sampleGraph fuel' nestedDoc = Done errors.
Proof.
  pose proof (validateSchemaOrg_throws_nothing sampleGraph
                sampleGraph_parentsResolve) as [H1 H2].
  split.
  - intros type. apply H1.
  - apply (H2 sampleGraph_acyclic nestedDoc). reflexivity.
Defined.

(** * Further properties of the module *)

(** ** [findType] *)

Section FindTypeFacts.
Variable g : SchemaStructure.

Lemma find_first {A : Type} (f : A -> bool) : forall l x,
  find f l = Some x ->
  exists before after,
    l = (before ++ x :: after)%list /\ forall y, In y before -> f y = false.
Proof.
  induction l as [|y l IH]; intros x; simpl; [discriminate|].
  destruct (f y) eqn:E.
  - intros [= ->]. exists [], l. split; [reflexivity | intros ? []].
  - intros H. destruct (IH x H) as (before & after & -> & Hb).
    exists (y :: before), after. split; [reflexivity|].
    intros z [<- | Hz]; [exact E | now apply Hb].
Qed.

(** [findType] reports a missing type exactly when no node of the graph
    carries the cleaned name, and otherwise gives the first node that
    carries it. *)
Theorem findType_first_match (type : string) :
  (findType g type = None <->
   forall node, In node (types g) -> type_name node <> cleanName type) /\
  (forall node,
      findType g type = Some node ->
      type_name node = cleanName type /\
      exists before after,
        types g = (before ++ node :: after)%list /\
        forall other, In other before -> type_name other <> cleanName type).
Proof.
  unfold findType. split.
  - split.
    + intros H node Hin E.
      pose proof (find_none _ _ H node Hin) as Hf. simpl in Hf.
      apply String.eqb_neq in Hf. contradiction.
    + intros H.
      destruct (find (fun typeObj => type_name typeObj =? cleanName type)
                  (types g)) as [node|] eqn:E; [|reflexivity].
      apply find_some in E as [Hin Heq]. apply String.eqb_eq in Heq.
      now elim (H node Hin).
  - intros node H. pose proof (find_some _ _ H) as [_ Heq].
    apply String.eqb_eq in Heq. split; [exact Heq|].
    destruct (find_first _ _ _ H) as (before & after & Hl & Hb).
    exists before, after. split; [exact Hl|].
    intros other Hother. apply String.eqb_neq. now apply Hb.
Qed.

(** Two spellings with the same cleaned name (a full URL and the bare name)
    resolve to the same node and, when the type is in the graph, give the
    same outcome of [getPropsForType]. *)
Theorem getPropsForType_spelling (fuel : nat) (type type' : string) :
  cleanName type = cleanName type' ->
  findType g type = findType g type' /\
  (findType g type <> None ->
   getPropsForType g fuel type = getPropsForType g fuel type').
Proof.
  intros E.
  assert (F : findType g type = findType g type').
  { unfold findType. now rewrite E. }
  split; [exact F|]. intros Hknown.
  destruct fuel as [|fuel]; [reflexivity|].
  rewrite !getPropsForType_S, <- F, <- E.
  destruct (findType g type); [reflexivity | now elim Hknown].
Qed.

End FindTypeFacts.

Lemma getPropsForType_spelling_witness :
  findType sampleGraph "https://schema.org/Person" = findType sampleGraph "Person" /\
  (findType sampleGraph "https://schema.org/Person" <> None ->
   getPropsForType sampleGraph 2 "https://schema.org/Person" =
   getPropsForType sampleGraph 2 "Person").
Proof.
  apply (getPropsForType_spelling sampleGraph 2
           "https://schema.org/Person" "Person").
  reflexivity.
Defined.

(** ** What [getPropsForType] returns and throws *)

Section Closure.
Variable g : SchemaStructure.

Lemma includes_In (l : list string) (x : string) :
  includes l x = true <-> In x l.
Proof.
  unfold includes. rewrite existsb_exists. split.
  - intros (y & Hy & E). apply String.eqb_eq in E. now subst.
  - intros H. exists x. split; [exact H | apply String.eqb_refl].
Qed.

Lemma direct_props_In (type x : string) :
  In x (map prop_name
          (filter (fun prop => includes (prop_parent prop) (cleanName type))
             (properties g))) <->
  declaredOn g type x.
Proof.
  unfold declaredOn. rewrite in_map_iff. split.
  - intros (prop & E & H). apply filter_In in H as [Hin Hinc]. now exists prop.
  - intros (prop & Hin & Hinc & E). exists prop. split; [exact E|].
    apply filter_In. now split.
Qed.

(** What a reduction over the parents that returned has collected. *)
Lemma reduce_parents_inv fuel : forall parents acc props,
  reduceM
    (fun allProps type =>
       inherited <- getPropsForType g fuel type ;;
       Done (allProps ++ inherited)%list) parents acc = Done props ->
  (forall p, In p parents -> exists l, getPropsForType g fuel p = Done l) /\
  (forall x, In x props <->
             In x acc \/
             exists p l, In p parents /\ getPropsForType g fuel p = Done l /\
                         In x l).
Proof.
  induction parents as [|p ps IH]; intros acc props; simpl.
  - intros [= <-]. split; [intros ? []|]. intros x. split; [now left|].
    intros [H | (q & l & [] & _)]. exact H.
  - destruct (getPropsForType g fuel p) as [l| |] eqn:E; simpl;
      try discriminate.
    intros H. destruct (IH _ _ H) as [Hall Hin]. split.
    + intros q [<- | Hq]; [now exists l | now apply Hall].
    + intros x. rewrite Hin, in_app_iff. split.
      * intros [[Ha | Hl] | (q & lq & Hq & Hlq & Hx)].
        -- now left.
        -- right. exists p, l. repeat split; trivial. now left.
        -- right. exists q, lq. repeat split; trivial. now right.
      * intros [Ha | (q & lq & [<- | Hq] & Hlq & Hx)].
        -- left. now left.
        -- left. right. congruence.
        -- right. now exists q, lq.
Qed.

(** A reduction over the parents throws what one of the parents threw. *)
Lemma reduce_parents_raise fuel : forall parents acc e,
  reduceM
    (fun allProps type =>
       inherited <- getPropsForType g fuel type ;;
       Done (allProps ++ inherited)%list) parents acc = Raise e ->
  exists p, In p parents /\ getPropsForType g fuel p = Raise e.
Proof.
  induction parents as [|p ps IH]; intros acc e; simpl; [discriminate|].
  destruct (getPropsForType g fuel p) as [l|e'|] eqn:E; simpl;
    try discriminate.
  - intros H. destruct (IH _ _ H) as (q & Hq & Hr). exists q. split;
      [now right | exact Hr].
  - intros [= ->]. exists p. split; [now left | exact E].
Qed.

(** When [getPropsForType] returns, the names it returns are exactly the
    names of the properties declared on the type or on a type reached from
    it along the parent links. *)
Theorem getPropsForType_closure (fuel : nat) : forall type props,
  getPropsForType g fuel type = Done props ->
  forall x,
    In x props <-> exists a, ancestorOf g type a /\ declaredOn g a x.
Proof.
  induction fuel as [|fuel IH]; intros type props; [discriminate|].
  rewrite getPropsForType_S.
  destruct (findType g type) as [node|] eqn:F; [|discriminate].
  intros H. destruct (reduce_parents_inv fuel _ _ _ H) as [Hall Hin].
  intros x. rewrite Hin, direct_props_In. split.
  - intros [Hd | (p & l & Hp & Hl & Hx)].
    + exists type. split; [constructor | exact Hd].
    + apply (IH p l Hl) in Hx as (a & Ha & Hd). exists a.
      split; [now apply (ancestor_parent g type node p a) | exact Hd].
  - intros (a & Ha & Hd). inversion Ha as [t | t node' p a' F' Hp Hpa]; subst.
    + now left.
    + right. assert (node' = node) by congruence. subst node'.
      destruct (Hall p Hp) as [l Hl]. exists p, l. repeat split; trivial.
      apply (IH p l Hl). now exists a.
Qed.

(** The only error [getPropsForType] throws is "Unable to get props for
    missing type", and the type it names is absent from the graph and is the
    given type or a name reached from it along the parent links. *)
Theorem getPropsForType_throws_missing_ancestor (fuel : nat) : forall type e,
  getPropsForType g fuel type = Raise e ->
  exists missing,
    e = UnableToGetProps missing /\
    ancestorOf g type missing /\
    findType g missing = None.
Proof.
  induction fuel as [|fuel IH]; intros type e; [discriminate|].
  rewrite getPropsForType_S.
  destruct (findType g type) as [node|] eqn:F.
  - intros H. apply reduce_parents_raise in H as (p & Hp & Hr).
    destruct (IH p e Hr) as (missing & -> & Ha & Hnone).
    exists missing. repeat split; trivial.
    now apply (ancestor_parent g type node p missing).
  - intros [= <-]. exists type. repeat split; [constructor | exact F].
Qed.

End Closure.

Lemma getPropsForType_closure_witness :
  In "name" ["birthDate"; "name"] <->
  exists a, ancestorOf sampleGraph "Person" a /\
            declaredOn sampleGraph a "name".
Proof.
  apply (getPropsForType_closure sampleGraph 2 "Person" ["birthDate"; "name"]).
  reflexivity.
Defined.

Lemma getPropsForType_throws_missing_ancestor_witness :
  exists missing,
    UnableToGetProps "Agent" = UnableToGetProps missing /\
    ancestorOf danglingGraph "Person" missing /\
    findType danglingGraph missing = None.
Proof.
  apply (getPropsForType_throws_missing_ancestor danglingGraph 2 "Person").
  reflexivity.
Defined.

(** ** The input/output suffix of a key *)

Module SuffixFacts.
Import Str.

Lemma eqb_length_neq (a b : string) :
  length a <> length b -> (a =? b) = false.
Proof. intros H. apply String.eqb_neq. intros ->. now elim H. Qed.

Lemma replaceInputOutput_unfold s :
  replaceInputOutput s =
  if (s =? "-input") || (s =? "-output") then EmptyString
  else match s with
       | EmptyString => EmptyString
       | String c s' => String c (replaceInputOutput s')
       end.
Proof. destruct s; reflexivity. Qed.

Lemma strip_input s : replaceInputOutput (s ++ "-input") = s.
Proof.
  induction s as [|c s IH]; [reflexivity|].
  rewrite replaceInputOutput_unfold.
  assert (E1 : (String c s ++ "-input" =? "-input") = false).
  { apply eqb_length_neq. simpl. rewrite StrFacts.append_length. simpl. lia. }
  assert (E2 : (String c s ++ "-input" =? "-output") = false).
  { destruct s as [|d s].
    - apply String.eqb_neq. simpl. congruence.
    - apply eqb_length_neq. simpl. rewrite StrFacts.append_length. simpl. lia. }
  rewrite E1, E2. simpl. now rewrite IH.
Qed.

Lemma strip_output s : replaceInputOutput (s ++ "-output") = s.
Proof.
  induction s as [|c s IH]; [reflexivity|].
  rewrite replaceInputOutput_unfold.
  assert (E1 : (String c s ++ "-output" =? "-input") = false).
  { apply eqb_length_neq. simpl. rewrite StrFacts.append_length. simpl. lia. }
  assert (E2 : (String c s ++ "-output" =? "-output") = false).
  { apply eqb_length_neq. simpl. rewrite StrFacts.append_length. simpl. lia. }
  rewrite E1, E2. simpl. now rewrite IH.
Qed.

Lemma strip_nothing s :
  (forall stem, s <> stem ++ "-input") ->
  (forall stem, s <> stem ++ "-output") ->
  replaceInputOutput s = s.
Proof.
  induction s as [|c s IH]; intros Hi Ho; [reflexivity|].
  rewrite replaceInputOutput_unfold.
  assert (E1 : (String c s =? "-input") = false).
  { apply String.eqb_neq. apply (Hi ""). }
  assert (E2 : (String c s =? "-output") = false).
  { apply String.eqb_neq. apply (Ho ""). }
  rewrite E1, E2. simpl. f_equal. apply IH.
  - intros stem ->. now apply (Hi (String c stem)).
  - intros stem ->. now apply (Ho (String c stem)).
Qed.

End SuffixFacts.

(** The replacement of line 97 removes exactly one trailing "-input" or
    "-output" and leaves every other key as it is. *)
Theorem replaceInputOutput_strips_suffix (s : string) :
  Str.replaceInputOutput (s ++ "-input") = s /\
  Str.replaceInputOutput (s ++ "-output") = s /\
  ((forall stem, s <> stem ++ "-input") ->
   (forall stem, s <> stem ++ "-output") ->
   Str.replaceInputOutput s = s).
Proof.
  split; [apply SuffixFacts.strip_input|].
  split; [apply SuffixFacts.strip_output | apply SuffixFacts.strip_nothing].
Qed.

Ltac no_suffix stem E :=
  repeat (destruct stem as [|? stem]; [discriminate E|];
          simpl in E; injection E as _ E);
  destruct stem; discriminate E.

Lemma replaceInputOutput_strips_suffix_witness :
  Str.replaceInputOutput "input-type" = "input-type".
Proof.
  apply (proj2 (proj2 (replaceInputOutput_strips_suffix "input-type"))).
  - intros stem E. no_suffix stem E.
  - intros stem E. no_suffix stem E.
Defined.

Module KeyFacts.
Import Str.

Lemma append_nil_r (s : string) : s ++ "" = s.
Proof. induction s; simpl; congruence. Qed.

Lemma append_assoc (a b c : string) : (a ++ b) ++ c = a ++ b ++ c.
Proof. induction a; simpl; congruence. Qed.

(** Two ways of cutting one string: one cut lies before the other. *)
Lemma append_split : forall k s u r,
  k ++ s = u ++ r ->
  (exists m, k = u ++ m /\ r = m ++ s) \/ (exists m, u = k ++ m /\ s = m ++ r).
Proof.
  induction k as [|c k IH]; intros s u r E; simpl in E.
  - right. now exists u.
  - destruct u as [|d u]; simpl in E.
    + left. exists (String c k). now split.
    + injection E as -> E. destruct (IH _ _ _ E) as [(m & -> & ->) | (m & -> & ->)].
      * left. now exists m.
      * right. now exists m.
Qed.

Lemma url_has_no_dash k m : ~ isSchemaOrgUrl (k ++ String "-" m).
Proof.
  intros [E | E]; symmetry in E; no_suffix k E.
Qed.

Lemma match_app k r s :
  matchSchemaOrgUrl k = Some r -> matchSchemaOrgUrl (k ++ s) = Some (r ++ s).
Proof.
  intros H. apply StrFacts.matchSchemaOrgUrl_spec in H as (u & Hu & ->).
  apply StrFacts.matchSchemaOrgUrl_spec. exists u. split; [exact Hu|].
  apply append_assoc.
Qed.

Lemma match_app_none k s :
  matchSchemaOrgUrl k = None -> matchSchemaOrgUrl (k ++ String "-" s) = None.
Proof.
  intros H. destruct (matchSchemaOrgUrl (k ++ String "-" s)) as [r|] eqn:E;
    [|reflexivity].
  apply StrFacts.matchSchemaOrgUrl_spec in E as (u & Hu & E).
  apply append_split in E as [(m & -> & _) | (m & -> & Hs)].
  - assert (C : matchSchemaOrgUrl (u ++ m) = Some m).
    { apply StrFacts.matchSchemaOrgUrl_spec. now exists u. }
    congruence.
  - destruct m as [|c m].
    + rewrite append_nil_r in Hu.
      assert (C : matchSchemaOrgUrl k = Some "").
      { apply StrFacts.matchSchemaOrgUrl_spec. exists k.
        split; [exact Hu | now rewrite append_nil_r]. }
      congruence.
    + simpl in Hs. injection Hs as <- _. now apply url_has_no_dash in Hu.
Qed.

(** A suffix that starts with "-" and holds no URL stays where it is. *)
Lemma replace_app_dash s :
  replaceSchemaOrgUrl (String "-" s) = String "-" s ->
  forall k,
    replaceSchemaOrgUrl (k ++ String "-" s) = replaceSchemaOrgUrl k ++ String "-" s.
Proof.
  intros Hs. induction k as [|c k IH]; [exact Hs|].
  rewrite (StrFacts.replace_unfold (String c k)).
  rewrite (StrFacts.replace_unfold (String c k ++ String "-" s)).
  destruct (matchSchemaOrgUrl (String c k)) as [r|] eqn:E.
  - now rewrite (match_app _ _ _ E).
  - rewrite (match_app_none _ _ E). simpl. now rewrite IH.
Qed.

Lemma keyword_app_dash k s :
  indexOfAtIsNot0 (k ++ String "-" s) = indexOfAtIsNot0 k.
Proof. destruct k; reflexivity. Qed.

End KeyFacts.

Section KeyNames.
Variable g : SchemaStructure.

(** The keys enter the result only through their reported names. *)
Lemma validateObjectKeys_by_names fuel typeOrTypes keys keys' :
  map propertyName (withoutKeywords keys) =
  map propertyName (withoutKeywords keys') ->
  validateObjectKeys g fuel typeOrTypes keys =
  validateObjectKeys g fuel typeOrTypes keys'.
Proof.
  intros H. unfold validateObjectKeys.
  assert (E : map Str.replaceInputOutput
                (map cleanName (filter Str.indexOfAtIsNot0 keys)) =
              map Str.replaceInputOutput
                (map cleanName (filter Str.indexOfAtIsNot0 keys'))).
  { rewrite !map_map. exact H. }
  now rewrite E.
Qed.

Lemma propertyName_input k : propertyName (k ++ "-input") = cleanName k.
Proof.
  unfold propertyName, cleanName.
  rewrite (KeyFacts.replace_app_dash "input" eq_refl).
  apply SuffixFacts.strip_input.
Qed.

Lemma propertyName_output k : propertyName (k ++ "-output") = cleanName k.
Proof.
  unfold propertyName, cleanName.
  rewrite (KeyFacts.replace_app_dash "output" eq_refl).
  apply SuffixFacts.strip_output.
Qed.

Lemma names_with_key (k k' : string) before after :
  Str.indexOfAtIsNot0 k = Str.indexOfAtIsNot0 k' ->
  propertyName k = propertyName k' ->
  map propertyName (withoutKeywords (before ++ k :: after)) =
  map propertyName (withoutKeywords (before ++ k' :: after)).
Proof.
  intros Hat Hname. unfold withoutKeywords.
  rewrite !filter_app, !map_app. simpl. rewrite Hat.
  destruct (Str.indexOfAtIsNot0 k'); simpl; now rewrite ?Hname.
Qed.

(** A key with the suffix "-input" or "-output" is looked up and reported
    under the cleaned name of the key without the suffix; the two suffixes
    are treated alike, and like the bare key when that key carries no suffix
    of its own. *)
Theorem validateObjectKeys_input_output
    (fuel : nat) (typeOrTypes : value) (before after : list string)
    (key : string) :
  propertyName (key ++ "-input") = cleanName key /\
  propertyName (key ++ "-output") = cleanName key /\
  validateObjectKeys g fuel typeOrTypes (before ++ (key ++ "-input") :: after) =
  validateObjectKeys g fuel typeOrTypes (before ++ (key ++ "-output") :: after) /\
  (propertyName key = cleanName key ->
   validateObjectKeys g fuel typeOrTypes (before ++ (key ++ "-input") :: after) =
   validateObjectKeys g fuel typeOrTypes (before ++ key :: after)).
Proof.
  split; [apply propertyName_input|]. split; [apply propertyName_output|].
  split.
  - apply validateObjectKeys_by_names, names_with_key.
    + now rewrite !KeyFacts.keyword_app_dash.
    + now rewrite propertyName_input, propertyName_output.
  - intros H. apply validateObjectKeys_by_names, names_with_key.
    + apply KeyFacts.keyword_app_dash.
    + now rewrite propertyName_input, H.
Qed.

End KeyNames.

Lemma validateObjectKeys_input_output_witness :
  validateObjectKeys sampleGraph 3 (VStr "Person")
    (["@type"] ++ ("http://schema.org/name" ++ "-input") :: ["colour"]) =
  validateObjectKeys sampleGraph 3 (VStr "Person")
    (["@type"] ++ "http://schema.org/name" :: ["colour"]).
Proof.
  apply (validateObjectKeys_input_output sampleGraph 3 (VStr "Person")
           ["@type"] ["colour"] "http://schema.org/name").
  reflexivity.
Defined.

(** ** The allow-list of several types *)

Section AllowList.
Variable g : SchemaStructure.

Lemma reduce_types_inv fuel : forall declared acc,
  (forall t, In t declared ->
             exists props, getPropsForType g fuel t = Done props) ->
  exists safelist,
    reduceM
      (fun safelist t =>
         match t with
         | VStr type =>
             knownProps <- getPropsForType g fuel type ;;
             Done (safelist ++ knownProps)%list
         | _ => Raise TypeError
         end) (map VStr declared) acc = Done safelist /\
    forall x, In x safelist <->
              In x acc \/
              exists t props, In t declared /\
                              getPropsForType g fuel t = Done props /\
                              In x props.
Proof.
  induction declared as [|t ts IH]; intros acc H; simpl.
  - exists acc. split; [reflexivity|]. intros x. split; [now left|].
    intros [Hx | (t & props & [] & _)]. exact Hx.
  - destruct (H t (or_introl eq_refl)) as [props Hprops]. rewrite Hprops.
    simpl. destruct (IH (acc ++ props)%list) as (safelist & -> & Hin).
    { intros u Hu. apply H. now right. }
    exists safelist. split; [reflexivity|]. intros x.
    rewrite Hin, in_app_iff. split.
    + intros [[Ha | Hp] | (u & pu & Hu & Hpu & Hx)].
      * now left.
      * right. exists t, props. repeat split; trivial. now left.
      * right. exists u, pu. repeat split; trivial. now right.
    + intros [Ha | (u & pu & [<- | Hu] & Hpu & Hx)].
      * left. now left.
      * left. right. congruence.
      * right. now exists u, pu.
Qed.

(** When [getPropsForType] returns for every declared type, the allow-list
    is the union of the property lists of the declared types, and the
    result is, in the order of the keys, one "Unexpected property" message
    for each key outside [@] whose reported name is in none of them. *)
Theorem validateObjectKeys_union
    (fuel : nat) (typeOrTypes : value) (declared keys : list string) :
  declares typeOrTypes declared ->
  (forall t, In t declared ->
             exists props, getPropsForType g fuel t = Done props) ->
  exists safelist,
    (forall x, In x safelist <->
               exists t props, In t declared /\
                               getPropsForType g fuel t = Done props /\
                               In x props) /\
    validateObjectKeys g fuel typeOrTypes keys =
    Done (map unexpectedProperty
            (filter (fun name => negb (includes safelist name))
               (map propertyName (withoutKeywords keys)))).
Proof.
  intros Hdecl Hprops.
  assert (Hknown : forall t, In t declared -> findType g t <> None).
  { intros t Ht. destruct (Hprops t Ht) as [props Hp].
    destruct fuel as [|fuel']; [discriminate|].
    rewrite getPropsForType_S in Hp.
    destruct (findType g t); [discriminate | discriminate Hp]. }
  assert (E : validateObjectKeys g fuel (VArr (map VStr declared)) keys =
              validateObjectKeys g fuel typeOrTypes keys).
  { destruct Hdecl as [-> | (t & -> & ->)]; reflexivity. }
  rewrite <- E. unfold validateObjectKeys. rewrite filterM_strings. simpl.
  assert (F : filter (isMissing g) declared = []).
  { destruct (filter (isMissing g) declared) as [|u us] eqn:F; [reflexivity|].
    assert (Hu : In u (filter (isMissing g) declared)) by (rewrite F; now left).
    apply filter_In in Hu as [Hu Hm]. unfold isMissing in Hm.
    specialize (Hknown u Hu). destruct (findType g u); [discriminate|].
    now elim Hknown. }
  rewrite F. simpl.
  destruct (reduce_types_inv fuel declared [] Hprops) as (safelist & -> & Hin).
  exists safelist. split.
  - intros x. rewrite Hin. split; [intros [[] | H]; exact H | now right].
  - simpl. unfold withoutKeywords. now rewrite !map_map.
Qed.

(** An array of types with an element that is not a string makes the call
    throw a [TypeError], whatever the graph and the keys. *)
Theorem validateObjectKeys_non_string_type
    (fuel : nat) (items : list value) (keys : list string) :
  (exists t, In t items /\ forall s, t <> VStr s) ->
  validateObjectKeys g fuel (VArr items) keys = Raise TypeError.
Proof.
  intros (t & Ht & Hnot). unfold validateObjectKeys.
  assert (E : filterM (isUnknownType g) items = Raise TypeError).
  { induction items as [|u us IH]; [destruct Ht|]. simpl.
    destruct u as [| | |s| |]; try reflexivity.
    simpl. destruct Ht as [<- | Ht]; [now elim (Hnot s)|].
    now rewrite (IH Ht). }
  now rewrite E.
Qed.

(** A document in which the walker meets no type keyword gives no error,
    for every graph and budget: nothing is looked up. *)
Theorem validateSchemaOrg_no_type_keyword (fuel : nat) (expandedObj : value) :
  (forall v, In v (visits (unwrapSingle expandedObj) []) ->
             v_name v <> TYPE_KEYWORD) ->
  validateSchemaOrg g fuel expandedObj = Done [].
Proof.
  rewrite validateSchemaOrg_visits.
  generalize (visits (unwrapSingle expandedObj) []) as vs.
  induction vs as [|v vs IH]; intros H; simpl; [reflexivity|].
  unfold callOn at 1, visitor at 1.
  assert (E : (v_name v =? TYPE_KEYWORD) = false).
  { apply String.eqb_neq. apply H. now left. }
  rewrite E. simpl. apply IH. intros u Hu. apply H. now right.
Qed.

End AllowList.

Lemma validateObjectKeys_union_witness :
  exists safelist,
    (forall x, In x safelist <->
               exists t props, In t ["Person"; "Organization"] /\
                               getPropsForType sampleGraph 3 t = Done props /\
                               In x props) /\
    validateObjectKeys sampleGraph 3 (VArr (map VStr ["Person"; "Organization"]))
      ["@type"; "http://schema.org/employee"; "http://schema.org/colour"] =
    Done (map unexpectedProperty
            (filter (fun name => negb (includes safelist name))
               (map propertyName
                  (withoutKeywords
                     ["@type"; "http://schema.org/employee";
                      "http://schema.org/colour"])))).
Proof.
  apply (validateObjectKeys_union sampleGraph 3
           (VArr (map VStr ["Person"; "Organization"]))
           ["Person"; "Organization"]).
  - left. reflexivity.
  - intros t [<- | [<- | []]]; eexists; reflexivity.
Defined.

Lemma validateObjectKeys_non_string_type_witness :
  validateObjectKeys sampleGraph 3 (VArr [VStr "Person"; VNum "1"])
    ["http://schema.org/name"] = Raise TypeError.
Proof.
  apply (validateObjectKeys_non_string_type sampleGraph 3
           [VStr "Person"; VNum "1"] ["http://schema.org/name"]).
  exists (VNum "1"). split; [simpl; tauto | discriminate].
Defined.

Lemma validateSchemaOrg_no_type_keyword_witness :
  validateSchemaOrg selfParentGraph 0
    (VObj [("http://schema.org/name", VArr [VObj [("@value", VStr "x")]])]) =
  Done [].
Proof.
  apply (validateSchemaOrg_no_type_keyword selfParentGraph 0).
  intros v Hv. simpl in Hv.
  destruct Hv as [<- | [<- | [<- | []]]]; discriminate.
Defined.
